(** * Live attendance engine of the youth-group API (src/setup_redis.py)

    A shallow embedding of the Redis-backed check-in/check-out workflow and
    of its finalization into the MySQL [event_attendance] table.

    Modelling choices:
    - Student ids.  The code stores [str(student_id)] for an integer id in
      Redis and reads members back with [int(...)]; on the canonical decimal
      strings it writes, [int] and [str] are inverse, so Redis members and
      hash fields are modelled directly by the integer id ([Z]).
    - Timestamps.  The code stores [datetime.utcnow().isoformat(...)]
      strings and parses them back with [datetime.fromisoformat].  An ISO
      string written by [isoformat] is never empty and parses back to the
      same instant, so a stored timestamp is modelled by that instant
      ([Timestamp := Z], seconds), the truthiness test [if checkin_time]
      by the presence of the hash field, and the parse by the identity.
    - Redis.  Each event owns three keys
      [event:<id>:checkedIn], [event:<id>:checkInTimes],
      [event:<id>:checkOutTimes]; they are grouped in one record per event.
      A missing key reads as an empty set / empty hash, as in Redis, and
      [r.delete(...)] of the three keys removes the event's entry.
    - The current time and the random index used by [SRANDMEMBER] are
      inputs of the operations (the environment chooses them). *)

From stdpp Require Import base gmap list strings pretty.

Open Scope Z_scope.

Definition Timestamp := Z.

(** ** Redis state *)

Record EventKeys := mkEventKeys {
  checkedIn : gset Z;            (* event:<id>:checkedIn      (SET)  *)
  checkInTimes : gmap Z Timestamp;  (* event:<id>:checkInTimes  (HASH) *)
  checkOutTimes : gmap Z Timestamp  (* event:<id>:checkOutTimes (HASH) *)
}.

Definition empty_keys : EventKeys := mkEventKeys ∅ ∅ ∅.

(** The whole Redis keyspace relevant to attendance: per event id. *)
Abbreviation Redis := (gmap Z EventKeys).

Definition keys_of (r : Redis) (event_id : Z) : EventKeys :=
  default empty_keys (r !! event_id).

Definition put_keys (r : Redis) (event_id : Z) (k : EventKeys) : Redis :=
  <[event_id := k]> r.

(** Redis primitives used by the code, addressed by event id. *)
Definition sismember (r : Redis) (e s : Z) : bool :=
  bool_decide (s ∈ checkedIn (keys_of r e)).

Definition scard (r : Redis) (e : Z) : nat := size (checkedIn (keys_of r e)).

Definition smembers (r : Redis) (e : Z) : list Z := elements (checkedIn (keys_of r e)).

Definition hgetall_in (r : Redis) (e : Z) : gmap Z Timestamp := checkInTimes (keys_of r e).

Definition hgetall_out (r : Redis) (e : Z) : gmap Z Timestamp := checkOutTimes (keys_of r e).

Definition sadd (r : Redis) (e s : Z) : Redis :=
  let k := keys_of r e in
  put_keys r e (mkEventKeys ({[s]} ∪ checkedIn k) (checkInTimes k) (checkOutTimes k)).

Definition srem (r : Redis) (e s : Z) : Redis :=
  let k := keys_of r e in
  put_keys r e (mkEventKeys (checkedIn k ∖ {[s]}) (checkInTimes k) (checkOutTimes k)).

Definition hset_in (r : Redis) (e s : Z) (v : Timestamp) : Redis :=
  let k := keys_of r e in
  put_keys r e (mkEventKeys (checkedIn k) (<[s := v]> (checkInTimes k)) (checkOutTimes k)).

Definition hset_out (r : Redis) (e s : Z) (v : Timestamp) : Redis :=
  let k := keys_of r e in
  put_keys r e (mkEventKeys (checkedIn k) (checkInTimes k) (<[s := v]> (checkOutTimes k))).

Definition hdel_out (r : Redis) (e s : Z) : Redis :=
  let k := keys_of r e in
  put_keys r e (mkEventKeys (checkedIn k) (checkInTimes k) (delete s (checkOutTimes k))).

(** [r.delete(checked_in_key, checkin_times_key, checkout_times_key)] *)
Definition delete_event_keys (r : Redis) (e : Z) : Redis := delete e r.

(** ** student_checkin_edit *)

Inductive CheckStatus := CHECKED_IN | CHECKED_OUT.

Definition student_checkin_edit (now : Timestamp) (event_id student_id : Z)
    (r : Redis) : Redis * CheckStatus :=
  let is_checked_in := sismember r event_id student_id in
  if is_checked_in then
    let r := srem r event_id student_id in
    let r := hset_out r event_id student_id now in
    (r, CHECKED_OUT)
  else
    let r := sadd r event_id student_id in
    let r := hset_in r event_id student_id now in
    let r := hdel_out r event_id student_id in
    (r, CHECKED_IN).

(** ** get_live_attendance *)

(** [times.get(student_id, "N/A")]: a stored timestamp or the sentinel. *)
Inductive CheckInTime := AtTime (t : Timestamp) | NA.

Record Snapshot := mkSnapshot {
  snap_event_id : Z;
  checked_in_count : nat;
  students : list (Z * CheckInTime)
}.

Definition get_live_attendance (event_id : Z) (r : Redis) : Snapshot :=
  (* pipeline: scard, smembers, hgetall on one state *)
  let count := scard r event_id in
  let members := smembers r event_id in
  let times := hgetall_in r event_id in
  let status_list :=
    map (fun student_id =>
           (student_id, match times !! student_id with
                        | Some t => AtTime t
                        | None => NA
                        end)) members in
  mkSnapshot event_id count status_list.

(** ** get_random_winner *)

(** [SRANDMEMBER key]: one member chosen by the store (the choice is the
    index [pick] into the member list), [None] on an empty set. *)
Definition srandmember (r : Redis) (e : Z) (pick : nat) : option Z :=
  let ms := smembers r e in
  match ms with
  | [] => None
  | _ => ms !! (pick mod length ms)%nat
  end.

Definition get_random_winner (pick : nat) (event_id : Z) (r : Redis) : Redis * option Z :=
  let result := srandmember r event_id pick in
  match result with
  | None => (r, None)
  | Some s => (r, Some s)
  end.

(** ** The durable [event_attendance] table *)

(** One row [(EventID, StudentID, CheckInTime, CheckOutTime)]. *)
Record AttendanceRecord := mkRecord {
  ar_event : Z;
  ar_student : Z;
  ar_check_in : option Timestamp;
  ar_check_out : option Timestamp
}.

Abbreviation Table := (list AttendanceRecord).

Definition row_key (row : AttendanceRecord) : Z * Z := (ar_event row, ar_student row).

Inductive MySQLError :=
  | StoreUnavailable     (* connection, cursor, execute or commit failed *)
  | DuplicateEntry.      (* uniqueness constraint on (EventID, StudentID) *)

(** Modelled from the spec: the [event_attendance] table and its schema are
    not part of the sources.  Section 6 requires a uniqueness constraint on
    (EventID, StudentID), and section 4.4 states that a failing batch insert
    aborts the whole batch.  [cursor.executemany] followed by [cnx.commit()]
    is therefore all-or-nothing: when the store is reachable ([mysql_up])
    and no row collides on (EventID, StudentID) with a stored row or with
    another row of the batch, all rows are appended and [cursor.rowcount]
    is their number; otherwise nothing is written and an error is raised. *)
Definition mysql_executemany (mysql_up : bool) (rows : Table) (db : Table)
    : (Table * nat) + MySQLError :=
  if negb mysql_up then inr StoreUnavailable
  else if bool_decide (NoDup (map row_key rows)) &&
          forallb (fun row => negb (bool_decide (row_key row ∈ map row_key db))) rows
  then inl (db ++ rows, length rows)
  else inr DuplicateEntry.

(** ** finalize_event_attendance *)

Record Summary := mkSummary {
  sum_event_id : Z;
  records_persisted : nat;
  message : string
}.

(** Normal return of the function, or the exception it raises. *)
Inductive FinalizeResult :=
  | FinOk (s : Summary)
  | FinRaise (err : MySQLError).   (* Exception("Failed to persist ...") *)

Definition no_data_message : string := "No attendance data found for this event".

Definition persisted_message (n : nat) : string :=
  "Successfully persisted " +:+ pretty (Z.of_nat n) +:+ " attendance records to MySQL".

(** [attendance_records]: one tuple per id of [all_student_ids]. *)
Definition build_records (event_id : Z) (all_student_ids : list Z)
    (checkin_times checkout_times : gmap Z Timestamp) : Table :=
  map (fun student_id =>
         mkRecord event_id student_id
           (checkin_times !! student_id) (checkout_times !! student_id))
      all_student_ids.

Definition finalize_event_attendance (mysql_up : bool) (event_id : Z)
    (r : Redis) (db : Table) : Redis * Table * FinalizeResult :=
  (* pipeline: smembers, hgetall, hgetall on one state *)
  let currently_checked_in := smembers r event_id in
  let checkin_times := hgetall_in r event_id in
  let checkout_times := hgetall_out r event_id in
  let all_student_ids := elements (dom checkin_times) in
  match all_student_ids with
  | [] =>
      (delete_event_keys r event_id, db,
       FinOk (mkSummary event_id 0 no_data_message))
  | _ =>
      let attendance_records :=
        build_records event_id all_student_ids checkin_times checkout_times in
      match mysql_executemany mysql_up attendance_records db with
      | inl (db', records_inserted) =>
          (* Delete Redis keys only after successful MySQL write *)
          (delete_event_keys r event_id, db',
           FinOk (mkSummary event_id records_inserted (persisted_message records_inserted)))
      | inr err => (r, db, FinRaise err)
      end
  end.

(** ** Traces of operations *)

Inductive Op :=
  | OpToggle (now : Timestamp) (event_id student_id : Z)
  | OpSnapshot (event_id : Z)
  | OpWinner (pick : nat) (event_id : Z)
  | OpFinalize (mysql_up : bool) (event_id : Z).

Definition exec_op (o : Op) (st : Redis * Table) : Redis * Table :=
  let (r, db) := st in
  match o with
  | OpToggle now e s => ((student_checkin_edit now e s r).1, db)
  | OpSnapshot e => (r, db)
  | OpWinner pick e => ((get_random_winner pick e r).1, db)
  | OpFinalize up e =>
      let '(r', db', _) := finalize_event_attendance up e r db in (r', db')
  end.

Definition init_state : Redis * Table := (∅, []).

Definition run (ops : list Op) : Redis * Table := foldl (fun st o => exec_op o st) init_state ops.

(** A small reachable state: students 42 and 43 checked into event 7. *)
Definition demo_state : Redis := (run [OpToggle 0 7 42; OpToggle 1 7 43]).1.

Example run_scenario :
  let st := run [OpToggle 0 7 42; OpToggle 1 7 42; OpToggle 2 7 42] in
  finalize_event_attendance true 7 st.1 st.2 =
  (∅, [mkRecord 7 42 (Some 2) None],
   FinOk (mkSummary 7 1 (persisted_message 1))).
Proof. vm_compute. reflexivity. Qed.

(** Number of rows stored for the pair (EventID, StudentID). *)
Definition rows_for (e s : Z) (db : Table) : nat :=
  length (filter (fun row => row_key row = (e, s)) db).

(** ** Callers of the attendance engine (src/YouthGroupAPI.py, src/graphql/schema.py) *)

(** [SELECT COUNT( * ) AS FinalizedCount FROM event_attendance WHERE EventID = %s]
    in [get_event_full_summary]. *)
Definition finalized_count (event_id : Z) (db : Table) : nat :=
  length (filter (fun row => ar_event row = event_id) db).

(** GraphQL types [AttendanceRecord] and [LiveAttendance]. *)
Record GqlAttendanceRecord := mkGqlRecord {
  gql_student_id : Z;
  gql_check_in_time : option CheckInTime;   (* record.get('check_in_time') *)
  gql_check_out_time : option Timestamp     (* record.get('check_out_time') *)
}.

Record GqlLiveAttendance := mkGqlLive {
  gql_event_id : Z;
  gql_checked_in_count : nat;
  gql_students : list GqlAttendanceRecord
}.

(** [get_event_live_attendance_resolver]: the snapshot's entries carry only
    the keys "student_id" and "check_in_time", so [record.get] finds the
    check-in time and never a check-out time. *)
Definition get_event_live_attendance_resolver (event_id : Z) (r : Redis)
    : option GqlLiveAttendance :=
  let attendance_data := get_live_attendance event_id r in
  let students :=
    map (fun '(sid, t) => mkGqlRecord sid (Some t) None) (students attendance_data) in
  Some (mkGqlLive event_id (checked_in_count attendance_data) students).

(** [RandomWinnerResponse] of the [/redis/events/{event_id}/random-winner]
    endpoint. *)
Record RandomWinnerResponse := mkWinnerResponse {
  rw_event_id : Z;
  rw_checked_in_count : nat;
  rw_student_id : option Z;
  rw_first_name : option string;
  rw_last_name : option string;
  rw_message : string
}.

(** The endpoint returns a response or raises an [HTTPException] (500). *)
Inductive HttpResult (A : Type) :=
  | HttpOk (a : A)
  | HttpError (status : Z) (detail : string).
Arguments HttpOk {A} a.
Arguments HttpError {A} status detail.

(** Rows [(FirstName, LastName)] of the MySQL [student] table, by [Id];
    either column may be NULL. *)
Abbreviation StudentTable := (gmap Z (option string * option string)).

Definition msg_none_checked_in : string :=
  "No students are currently checked in for this event.".
Definition msg_none_available : string := "No students available to choose from.".
Definition msg_winner : string :=
  "Random winner selected from currently checked-in students.".

(** [get_random_event_winner]: live snapshot, then [get_random_winner], then
    the name lookup [SELECT FirstName, LastName FROM student WHERE Id = %s]
    (failing with a [mysql.connector.Error] when the store is down). *)
Definition get_random_event_winner (pick : nat) (mysql_up : bool)
    (student_rows : StudentTable) (event_id : Z) (r : Redis)
    : HttpResult RandomWinnerResponse :=
  let attendance := get_live_attendance event_id r in
  let checked_in_count := checked_in_count attendance in
  if (checked_in_count =? 0)%nat then
    HttpOk (mkWinnerResponse event_id 0 None None None msg_none_checked_in)
  else
    match (get_random_winner pick event_id r).2 with
    | None =>
        HttpOk (mkWinnerResponse event_id checked_in_count None None None msg_none_available)
    | Some student_id =>
        if negb mysql_up then HttpError 500 "Database error (MySQL)"
        else
          let '(first_name, last_name) :=
            match student_rows !! student_id with
            | Some (fn, ln) => (fn, ln)
            | None => (None, None)
            end in
          HttpOk (mkWinnerResponse event_id checked_in_count (Some student_id)
                    first_name last_name msg_winner)
    end.

(** A one-row [student] table. *)
Definition demo_rows : StudentTable := {[42 := (Some "Ana", Some "Lee")]}.

(** Every student id of the event's CheckInTimes is either checked in or
    has a check-out time, and a check-out time exists only for a student
    who checked in. *)
Definition inv_history (k : EventKeys) : Prop :=
  dom (checkOutTimes k) ⊆ dom (checkInTimes k) ∧
  dom (checkInTimes k) ⊆ checkedIn k ∪ dom (checkOutTimes k).

(** ** Invariants of the reachable states *)

Definition inv_keys (k : EventKeys) : Prop :=
  checkedIn k ## dom (checkOutTimes k) ∧ checkedIn k ⊆ dom (checkInTimes k).

Definition inv_redis (r : Redis) : Prop := ∀ e, inv_keys (keys_of r e).

Definition inv_db (db : Table) : Prop := NoDup (map row_key db).

Definition Inv (st : Redis * Table) : Prop := inv_redis st.1 ∧ inv_db st.2.

(** ** Lemmas on the Redis primitives *)

Section Primitives.

Lemma keys_of_put_eq (r : Redis) e k : keys_of (put_keys r e k) e = k.
Proof. unfold keys_of, put_keys. by rewrite lookup_insert_eq. Qed.

Lemma keys_of_put_ne (r : Redis) e e' k : e ≠ e' → keys_of (put_keys r e k) e' = keys_of r e'.
Proof. intros. unfold keys_of, put_keys. by rewrite lookup_insert_ne. Qed.

Lemma keys_of_delete_eq (r : Redis) e : keys_of (delete_event_keys r e) e = empty_keys.
Proof. unfold keys_of, delete_event_keys. by rewrite lookup_delete_eq. Qed.

Lemma keys_of_delete_ne (r : Redis) e e' :
  e ≠ e' → keys_of (delete_event_keys r e) e' = keys_of r e'.
Proof. intros. unfold keys_of, delete_event_keys. by rewrite lookup_delete_ne. Qed.

Lemma inv_keys_empty : inv_keys empty_keys.
Proof. unfold inv_keys; simpl. rewrite dom_empty_L. set_solver. Qed.

End Primitives.

(** The effect of one toggle, field by field. *)
Lemma checkin_edit_keys now e s (r : Redis) :
  let k := keys_of r e in
  student_checkin_edit now e s r =
  if bool_decide (s ∈ checkedIn k)
  then (put_keys r e (mkEventKeys (checkedIn k ∖ {[s]}) (checkInTimes k)
                                  (<[s := now]> (checkOutTimes k))), CHECKED_OUT)
  else (put_keys r e (mkEventKeys ({[s]} ∪ checkedIn k) (<[s := now]> (checkInTimes k))
                                  (delete s (checkOutTimes k))), CHECKED_IN).
Proof.
  simpl. unfold student_checkin_edit, sismember, srem, hset_out, sadd, hset_in, hdel_out.
  case_bool_decide; rewrite ?keys_of_put_eq; simpl;
    unfold put_keys; rewrite ?insert_insert_eq; reflexivity.
Qed.

Lemma toggle_preserves_inv now e s (r : Redis) :
  inv_redis r → inv_redis (student_checkin_edit now e s r).1.
Proof.
  intros Hinv e'. rewrite checkin_edit_keys. simpl.
  destruct (decide (e = e')) as [<-|Hne].
  - destruct (Hinv e) as [Hdis Hsub].
    case_bool_decide; simpl; rewrite keys_of_put_eq; unfold inv_keys; simpl;
      rewrite ?dom_insert_L, ?dom_delete_L; set_solver.
  - case_bool_decide; simpl; rewrite keys_of_put_ne; auto.
Qed.

(** ** Lemmas on the batch insert and on finalize *)

Lemma mysql_executemany_ok up (rows db db' : Table) n :
  mysql_executemany up rows db = inl (db', n) →
  db' = db ++ rows ∧ n = length rows ∧ NoDup (map row_key rows) ∧
  (∀ row, row ∈ rows → row_key row ∉ map row_key db).
Proof.
  unfold mysql_executemany. destruct up; simpl; [|discriminate].
  destruct (bool_decide (NoDup (map row_key rows))) eqn:Hnd; simpl; [|discriminate].
  destruct (forallb _ rows) eqn:Hall; [|discriminate].
  intros [= <- <-]. apply bool_decide_eq_true in Hnd.
  split; [done|]. split; [done|]. split; [done|].
  intros row Hrow. rewrite forallb_forall in Hall.
  apply list_elem_of_In in Hrow. specialize (Hall row Hrow).
  apply negb_true_iff, bool_decide_eq_false in Hall. done.
Qed.

Lemma build_records_keys e (ids : list Z) cin cout :
  map row_key (build_records e ids cin cout) = map (fun s => (e, s)) ids.
Proof. unfold build_records. rewrite map_map. reflexivity. Qed.

Lemma build_records_students e (ids : list Z) cin cout :
  map ar_student (build_records e ids cin cout) = ids.
Proof. unfold build_records. rewrite map_map. simpl. apply map_id. Qed.

Lemma elem_of_build_records e (ids : list Z) cin cout rec :
  rec ∈ build_records e ids cin cout ↔
  ∃ s, rec = mkRecord e s (cin !! s) (cout !! s) ∧ s ∈ ids.
Proof. unfold build_records. apply list_elem_of_fmap. Qed.

Lemma finalize_ok up e (r : Redis) (db : Table) r' db' sm :
  finalize_event_attendance up e r db = (r', db', FinOk sm) →
  let cin := hgetall_in r e in
  let recs := build_records e (elements (dom cin)) cin (hgetall_out r e) in
  r' = delete_event_keys r e ∧ db' = db ++ recs ∧ records_persisted sm = length recs ∧
  NoDup (map row_key recs) ∧ (∀ row, row ∈ recs → row_key row ∉ map row_key db).
Proof.
  unfold finalize_event_attendance. simpl.
  destruct (elements (dom (hgetall_in r e))) as [|s0 ids] eqn:Hids.
  - intros [= <- <- <-]. simpl. rewrite app_nil_r.
    repeat split; try done; [constructor | set_solver].
  - destruct (mysql_executemany up _ db) as [[db'' n]|err] eqn:Hm; [|discriminate].
    intros [= <- <- <-]. simpl.
    apply mysql_executemany_ok in Hm as (-> & -> & Hnd & Hfresh). done.
Qed.

Lemma finalize_raise up e (r : Redis) (db : Table) r' db' err :
  finalize_event_attendance up e r db = (r', db', FinRaise err) →
  let cin := hgetall_in r e in
  let recs := build_records e (elements (dom cin)) cin (hgetall_out r e) in
  r' = r ∧ db' = db ∧ elements (dom cin) ≠ [] ∧
  mysql_executemany up recs db = inr err.
Proof.
  unfold finalize_event_attendance. simpl.
  destruct (elements (dom (hgetall_in r e))) as [|s0 ids] eqn:Hids; [discriminate|].
  destruct (mysql_executemany up _ db) as [[db'' n]|err'] eqn:Hm; [discriminate|].
  intros [= <- <- <-]. done.
Qed.

(** ** The invariant holds along every trace *)

Lemma inv_redis_delete (r : Redis) e : inv_redis r → inv_redis (delete_event_keys r e).
Proof.
  intros Hinv e'. destruct (decide (e = e')) as [<-|Hne].
  - rewrite keys_of_delete_eq. apply inv_keys_empty.
  - rewrite keys_of_delete_ne; auto.
Qed.

Lemma finalize_preserves_inv up e (r : Redis) (db : Table) :
  Inv (r, db) → Inv (let '(r', db', _) := finalize_event_attendance up e r db in (r', db')).
Proof.
  intros [Hr Hdb].
  destruct (finalize_event_attendance up e r db) as [[r' db'] res] eqn:Hf.
  destruct res as [sm|err].
  - apply finalize_ok in Hf as (-> & -> & _ & Hnd & Hfresh). split; simpl.
    + by apply inv_redis_delete.
    + unfold inv_db. rewrite map_app. apply NoDup_app. split; [done|]. split; [|done].
      intros x Hx Hx'. apply list_elem_of_fmap in Hx' as (row & -> & Hrow).
      by apply (Hfresh row).
  - apply finalize_raise in Hf as (-> & -> & _). by split.
Qed.

Lemma exec_op_preserves_inv o st : Inv st → Inv (exec_op o st).
Proof.
  destruct st as [r db]. intros HI. destruct o as [now e s|e|pick e|up e]; simpl.
  - destruct HI as [Hr Hdb]. split; [by apply toggle_preserves_inv | done].
  - done.
  - unfold get_random_winner. by destruct (srandmember r e pick).
  - by apply finalize_preserves_inv.
Qed.

Lemma inv_init : Inv init_state.
Proof.
  split; simpl.
  - intros e. unfold keys_of. rewrite lookup_empty. apply inv_keys_empty.
  - constructor.
Qed.

Lemma run_inv ops : Inv (run ops).
Proof.
  unfold run. generalize inv_init. generalize init_state.
  induction ops as [|o ops IH]; intros st Hst; simpl; [done|].
  apply IH. by apply exec_op_preserves_inv.
Qed.

Lemma rows_for_absent e s (db : Table) : (e, s) ∉ map row_key db → rows_for e s db = 0%nat.
Proof.
  unfold rows_for. induction db as [|row db IH]; intros Hn; simpl; [done|].
  rewrite filter_cons. case_decide as Heq.
  - exfalso. apply Hn. rewrite <- Heq. left.
  - apply IH. intros Hx. apply Hn. by right.
Qed.

Lemma rows_for_unique e s (db : Table) :
  NoDup (map row_key db) → (e, s) ∈ map row_key db → rows_for e s db = 1%nat.
Proof.
  induction db as [|row db IH]; intros Hnd Hin; simpl in *; [set_solver|].
  apply NoDup_cons in Hnd as [Hnot Hnd].
  unfold rows_for. rewrite filter_cons. case_decide as Heq.
  - simpl. f_equal. apply rows_for_absent. by rewrite <- Heq.
  - apply IH; [done|]. apply elem_of_cons in Hin as [Hin|Hin]; [|done].
    by rewrite Hin in Heq.
Qed.

(** ** Claims *)

(** C3: toggle.  If the student is in the event's CheckInSet, the call
    removes them, stamps CheckOutTimes[student] with the current time and
    returns CHECKED_OUT; otherwise it adds them, stamps
    CheckInTimes[student] with the current time, deletes any
    CheckOutTimes[student] entry and returns CHECKED_IN.  No other event's
    keys change. *)
Theorem checkin_edit_spec now e s (r : Redis) :
  let k := keys_of r e in
  (s ∈ checkedIn k →
     (student_checkin_edit now e s r).2 = CHECKED_OUT ∧
     keys_of (student_checkin_edit now e s r).1 e =
       mkEventKeys (checkedIn k ∖ {[s]}) (checkInTimes k) (<[s := now]> (checkOutTimes k))) ∧
  (s ∉ checkedIn k →
     (student_checkin_edit now e s r).2 = CHECKED_IN ∧
     keys_of (student_checkin_edit now e s r).1 e =
       mkEventKeys ({[s]} ∪ checkedIn k) (<[s := now]> (checkInTimes k))
                   (delete s (checkOutTimes k))) ∧
  (∀ e', e' ≠ e → keys_of (student_checkin_edit now e s r).1 e' = keys_of r e').
Proof.
  simpl. rewrite checkin_edit_keys. simpl.
  split; [|split].
  - intros Hin. rewrite bool_decide_true by done. simpl. by rewrite keys_of_put_eq.
  - intros Hin. rewrite bool_decide_false by done. simpl. by rewrite keys_of_put_eq.
  - intros e' Hne. case_bool_decide; simpl; rewrite keys_of_put_ne; auto.
Qed.

Lemma checkin_edit_spec_witness :
  (student_checkin_edit 5 7 42 ∅).2 = CHECKED_IN ∧
  keys_of (student_checkin_edit 5 7 42 ∅).1 7 = mkEventKeys {[42]} {[42 := 5]} ∅.
Proof.
  destruct (proj1 (proj2 (checkin_edit_spec 5 7 42 ∅))) as [H1 H2].
  - vm_compute. set_solver.
  - split; [exact H1|]. rewrite H2. vm_compute. reflexivity.
Defined.

(** C7: the live snapshot.  Its count is the size of the CheckInSet, it
    lists every checked-in student exactly once, and each entry carries the
    timestamp stored in CheckInTimes for that student (the one written by
    the student's latest check-in) or the sentinel "N/A" when none is
    stored; the function is total, so a missing timestamp never fails the
    request. *)
Theorem live_attendance_reports_times e (r : Redis) :
  let k := keys_of r e in
  let snap := get_live_attendance e r in
  checked_in_count snap = size (checkedIn k) ∧
  NoDup (map fst (students snap)) ∧
  (∀ s v, (s, v) ∈ students snap ↔
          s ∈ checkedIn k ∧
          v = match checkInTimes k !! s with Some t => AtTime t | None => NA end).
Proof.
  simpl. unfold get_live_attendance, smembers, hgetall_in, scard. simpl.
  split; [done|]. split.
  - rewrite map_map. simpl. rewrite map_id. apply NoDup_elements.
  - intros s v. rewrite list_elem_of_fmap. split.
    + intros (s' & [= -> ->] & Hs). rewrite elem_of_elements in Hs. done.
    + intros [Hs ->]. exists s. split; [done|]. by rewrite elem_of_elements.
Qed.

(** C6: the random winner.  It is [None] exactly when the snapshot count
    is 0; a returned id is a member of the CheckInSet (and of the
    snapshot); the Redis state is left unchanged. *)
Theorem random_winner_spec pick e (r : Redis) :
  ((get_random_winner pick e r).2 = None ↔ checked_in_count (get_live_attendance e r) = 0%nat) ∧
  (∀ s, (get_random_winner pick e r).2 = Some s →
        s ∈ checkedIn (keys_of r e) ∧ s ∈ map fst (students (get_live_attendance e r))) ∧
  (get_random_winner pick e r).1 = r.
Proof.
  assert (Hw : (get_random_winner pick e r) = (r, srandmember r e pick)).
  { unfold get_random_winner. by destruct (srandmember r e pick). }
  rewrite Hw. simpl. unfold srandmember, get_live_attendance, scard, smembers. simpl.
  rewrite map_map. simpl. rewrite map_id.
  assert (Hsz : size (checkedIn (keys_of r e)) = length (elements (checkedIn (keys_of r e))))
    by reflexivity.
  rewrite Hsz.
  destruct (elements (checkedIn (keys_of r e))) as [|x xs] eqn:Hel.
  - split; [done|]. split; [discriminate|done].
  - split.
    + split; [|discriminate]. intros Hnone.
      pose proof (Nat.mod_upper_bound pick (length (x :: xs)) ltac:(simpl; lia)) as Hlt.
      apply lookup_lt_is_Some_2 in Hlt. rewrite Hnone in Hlt. by destruct Hlt.
    + split; [|done]. intros s Hs. apply list_elem_of_lookup_2 in Hs.
      split; [|done]. rewrite <- elem_of_elements, Hel. done.
Qed.

Lemma random_winner_spec_witness :
  ∃ s, (get_random_winner 1 7 demo_state).2 = Some s ∧
       s ∈ checkedIn (keys_of demo_state 7) ∧
       (get_random_winner 1 7 demo_state).1 = demo_state.
Proof.
  pose proof (random_winner_spec 1 7 demo_state) as (_ & Hmem & Hr).
  assert (Hw : (get_random_winner 1 7 demo_state).2 = Some 42) by (vm_compute; reflexivity).
  exists 42. split; [exact Hw|]. split; [apply (proj1 (Hmem 42 Hw))|exact Hr].
Defined.

(** C1: a failed durable write destroys nothing.  When the universe of
    students is non-empty and the batch insert fails, finalize raises the
    error and returns the Redis state and the table unchanged; conversely,
    whenever finalize changes the event's ephemeral keys it returned
    normally, and either there was nothing to write or the insert
    succeeded. *)
Theorem finalize_failed_write_keeps_keys up e (r : Redis) (db : Table) :
  let cin := hgetall_in r e in
  let recs := build_records e (elements (dom cin)) cin (hgetall_out r e) in
  (∀ err, elements (dom cin) ≠ [] → mysql_executemany up recs db = inr err →
          finalize_event_attendance up e r db = (r, db, FinRaise err)) ∧
  (∀ r' db' res, finalize_event_attendance up e r db = (r', db', res) →
          keys_of r' e ≠ keys_of r e →
          (∃ sm, res = FinOk sm) ∧
          (elements (dom cin) = [] ∨ ∃ db'' n, mysql_executemany up recs db = inl (db'', n))).
Proof.
  simpl. split.
  - intros err Hne Hm. unfold finalize_event_attendance.
    destruct (elements (dom (hgetall_in r e))) as [|s0 ids] eqn:Hids; [done|].
    rewrite Hm. reflexivity.
  - intros r' db' res Hf Hch. unfold finalize_event_attendance in Hf.
    destruct (elements (dom (hgetall_in r e))) as [|s0 ids] eqn:Hids.
    + injection Hf as <- <- <-. split; [by eexists|by left].
    + destruct (mysql_executemany up _ db) as [[db'' n]|err] eqn:Hm.
      * injection Hf as <- <- <-. split; [by eexists|right; eauto].
      * injection Hf as <- <- <-. done.
Qed.

Lemma finalize_failed_write_keeps_keys_witness :
  let r := (run [OpToggle 0 7 42]).1 in
  finalize_event_attendance false 7 r [] = (r, [], FinRaise StoreUnavailable).
Proof.
  simpl. apply (proj1 (finalize_failed_write_keeps_keys false 7 (run [OpToggle 0 7 42]).1 [])).
  - vm_compute. discriminate.
  - vm_compute. reflexivity.
Defined.

(** C5: finalize on an event whose CheckInTimes is empty deletes the
    event's keys, persists nothing, returns records_persisted = 0 with the
    "No attendance data" message, and does not raise, whatever the state of
    the durable store. *)
Theorem finalize_empty_history up e (r : Redis) (db : Table) :
  dom (checkInTimes (keys_of r e)) = ∅ →
  finalize_event_attendance up e r db =
    (delete_event_keys r e, db, FinOk (mkSummary e 0 no_data_message)) ∧
  keys_of (delete_event_keys r e) e = empty_keys.
Proof.
  intros Hdom. split; [|apply keys_of_delete_eq].
  unfold finalize_event_attendance, hgetall_in. rewrite Hdom, elements_empty. reflexivity.
Qed.

Lemma finalize_empty_history_witness :
  let r := (run [OpToggle 0 7 42]).1 in
  finalize_event_attendance false 8 r [] =
    (delete_event_keys r 8, [], FinOk (mkSummary 8 0 no_data_message)).
Proof.
  simpl. apply (finalize_empty_history false 8 (run [OpToggle 0 7 42]).1 []).
  vm_compute. reflexivity.
Defined.

(** C9: in every reachable state no student of an event is both in its
    CheckInSet and a key of its CheckOutTimes. *)
Theorem checked_in_disjoint_checkout ops e :
  let k := keys_of (run ops).1 e in
  checkedIn k ## dom (checkOutTimes k).
Proof. simpl. apply (proj1 (run_inv ops)). Qed.

(** C10: in every reachable state every member of an event's CheckInSet
    is a key of its CheckInTimes; so the snapshot never reports the "N/A"
    sentinel and finalize's universe contains every checked-in student. *)
Theorem checked_in_has_checkin_time ops e :
  let r := (run ops).1 in
  let k := keys_of r e in
  checkedIn k ⊆ dom (checkInTimes k) ∧
  (NA ∉ map snd (students (get_live_attendance e r))) ∧
  (∀ s, s ∈ checkedIn k → s ∈ elements (dom (hgetall_in r e))).
Proof.
  simpl. pose proof (proj2 (proj1 (run_inv ops) e)) as Hsub.
  split; [done|]. split.
  - unfold get_live_attendance, smembers, hgetall_in. simpl.
    rewrite map_map. simpl. intros Hna.
    apply list_elem_of_fmap in Hna as (s & Hs & Hel).
    rewrite elem_of_elements in Hel. apply Hsub, elem_of_dom in Hel as [t Ht].
    rewrite Ht in Hs. discriminate.
  - intros s Hs. rewrite elem_of_elements. by apply Hsub.
Qed.

(** C2: a successful finalize from a reachable state appends exactly one
    row per key of the event's CheckInTimes (whether or not the student is
    still in the CheckInSet), each with the stored check-in time; a
    student still in the CheckInSet gets a null CheckOutTime. *)
Theorem finalize_one_record_per_checkin ops up e r' db' sm :
  finalize_event_attendance up e (run ops).1 (run ops).2 = (r', db', FinOk sm) →
  let k := keys_of (run ops).1 e in
  ∃ recs : Table,
    db' = (run ops).2 ++ recs ∧ records_persisted sm = length recs ∧
    NoDup (map ar_student recs) ∧
    (∀ s, s ∈ map ar_student recs ↔ s ∈ dom (checkInTimes k)) ∧
    (∀ rec, rec ∈ recs →
       ar_event rec = e ∧
       ar_check_in rec = checkInTimes k !! ar_student rec ∧
       (ar_student rec ∈ checkedIn k → ar_check_out rec = None)).
Proof.
  intros Hf. simpl.
  pose proof (proj1 (proj1 (run_inv ops) e)) as Hdis.
  apply finalize_ok in Hf as (_ & -> & Hn & _ & _).
  eexists. split; [reflexivity|]. split; [exact Hn|].
  unfold hgetall_in, hgetall_out. rewrite build_records_students.
  split; [apply NoDup_elements|]. split.
  - intros s. apply elem_of_elements.
  - intros rec Hrec. apply elem_of_build_records in Hrec as (s & -> & Hs). simpl.
    split; [done|]. split; [done|]. intros Hin.
    apply not_elem_of_dom. set_solver.
Qed.

Lemma finalize_one_record_per_checkin_witness :
  ∃ recs : Table,
    finalize_event_attendance true 7 (run [OpToggle 0 7 42; OpToggle 1 7 43]).1
      (run [OpToggle 0 7 42; OpToggle 1 7 43]).2 =
      (∅, recs, FinOk (mkSummary 7 2 (persisted_message 2))) ∧
    ∀ rec, rec ∈ recs → ar_check_out rec = None.
Proof.
  eexists. split; [vm_compute; reflexivity|].
  intros rec Hrec.
  destruct (finalize_one_record_per_checkin [OpToggle 0 7 42; OpToggle 1 7 43] true 7
              ∅ _ (mkSummary 7 2 (persisted_message 2)) ltac:(vm_compute; reflexivity))
    as (recs & Hdb & _ & _ & _ & Hrecs).
  vm_compute in Hdb. subst recs.
  apply (Hrecs rec Hrec). vm_compute in Hrec.
  apply elem_of_cons in Hrec as [->|Hrec];
    [|apply elem_of_cons in Hrec as [->|Hrec]; [|apply elem_of_nil in Hrec; contradiction]];
    apply (bool_decide_unpack _); vm_compute; reflexivity.
Defined.

(** C4: after a successful finalize from a reachable state the snapshot
    count for the event is 0, and every student of the event's check-in
    history (a key of CheckInTimes now, or persisted by an earlier
    finalize) has exactly one durable row. *)
Theorem finalize_clears_and_persists_once ops up e r' db' sm :
  finalize_event_attendance up e (run ops).1 (run ops).2 = (r', db', FinOk sm) →
  checked_in_count (get_live_attendance e r') = 0%nat ∧
  (∀ s, s ∈ dom (checkInTimes (keys_of (run ops).1 e)) ∨ (e, s) ∈ map row_key (run ops).2 →
        rows_for e s db' = 1%nat).
Proof.
  intros Hf. pose proof (proj2 (run_inv ops)) as Hdb.
  apply finalize_ok in Hf as (-> & -> & _ & Hnd & Hfresh).
  split.
  - unfold get_live_attendance, scard. simpl. rewrite keys_of_delete_eq. done.
  - intros s Hs. apply rows_for_unique.
    + rewrite map_app. apply NoDup_app. split; [done|]. split; [|done].
      intros x Hx Hx'. apply list_elem_of_fmap in Hx' as (row & -> & Hrow).
      by apply (Hfresh row).
    + rewrite map_app, elem_of_app. destruct Hs as [Hs|Hs]; [right|by left].
      unfold hgetall_in, hgetall_out. rewrite build_records_keys.
      apply list_elem_of_fmap. exists s. split; [done|]. by apply elem_of_elements.
Qed.

Lemma finalize_clears_and_persists_once_witness :
  checked_in_count (get_live_attendance 7 ∅) = 0%nat ∧
  rows_for 7 42 [mkRecord 7 43 (Some 1) None; mkRecord 7 42 (Some 0) None] = 1%nat.
Proof.
  destruct (finalize_clears_and_persists_once [OpToggle 0 7 42; OpToggle 1 7 43] true 7
              ∅ [mkRecord 7 43 (Some 1) None; mkRecord 7 42 (Some 0) None]
              (mkSummary 7 2 (persisted_message 2)) ltac:(vm_compute; reflexivity))
    as [H1 H2].
  split; [exact H1|]. apply H2. left. vm_compute. set_solver.
Defined.

(** ** Further properties of the engine and of its callers *)

(** Toggling a student who is not checked in three times answers
    CHECKED_IN, CHECKED_OUT, CHECKED_IN, and after the first two calls the
    CheckInSet is back to what it was. *)
Theorem toggle_alternates now1 now2 now3 e s (r : Redis) :
  s ∉ checkedIn (keys_of r e) →
  let t1 := student_checkin_edit now1 e s r in
  let t2 := student_checkin_edit now2 e s t1.1 in
  let t3 := student_checkin_edit now3 e s t2.1 in
  t1.2 = CHECKED_IN ∧ t2.2 = CHECKED_OUT ∧ t3.2 = CHECKED_IN ∧
  checkedIn (keys_of t2.1 e) = checkedIn (keys_of r e).
Proof.
  intros Hs. cbv zeta.
  destruct (proj1 (proj2 (checkin_edit_spec now1 e s r)) Hs) as [H1 K1].
  assert (Hs1 : s ∈ checkedIn (keys_of (student_checkin_edit now1 e s r).1 e))
    by (rewrite K1; cbn [checkedIn]; clear; set_solver).
  destruct (proj1 (checkin_edit_spec now2 e s _) Hs1) as [H2 K2].
  assert (Hs2 : s ∉ checkedIn (keys_of (student_checkin_edit now2 e s
                  (student_checkin_edit now1 e s r).1).1 e))
    by (rewrite K2; cbn [checkedIn]; clear; set_solver).
  destruct (proj1 (proj2 (checkin_edit_spec now3 e s _)) Hs2) as [H3 _].
  split; [done|]. split; [done|]. split; [done|].
  rewrite K2, K1. cbn [checkedIn]. clear -Hs. set_solver.
Qed.

Lemma toggle_alternates_witness :
  (student_checkin_edit 0 7 42 ∅).2 = CHECKED_IN ∧
  (student_checkin_edit 1 7 42 (student_checkin_edit 0 7 42 ∅).1).2 = CHECKED_OUT.
Proof.
  destruct (toggle_alternates 0 1 2 7 42 ∅ ltac:(vm_compute; set_solver)) as (H1 & H2 & _).
  split; [exact H1 | exact H2].
Defined.

(** A toggle for one student changes nothing about any other student of
    the same event: membership and both timestamps are untouched. *)
Theorem toggle_other_student now e s s' (r : Redis) :
  s' ≠ s →
  let k := keys_of r e in
  let k' := keys_of (student_checkin_edit now e s r).1 e in
  (s' ∈ checkedIn k' ↔ s' ∈ checkedIn k) ∧
  checkInTimes k' !! s' = checkInTimes k !! s' ∧
  checkOutTimes k' !! s' = checkOutTimes k !! s'.
Proof.
  intros Hne. simpl. rewrite checkin_edit_keys. simpl.
  case_bool_decide; simpl; rewrite keys_of_put_eq; simpl.
  - rewrite lookup_insert_ne by congruence. set_solver.
  - rewrite !lookup_insert_ne, lookup_delete_ne by congruence. set_solver.
Qed.

Lemma toggle_other_student_witness :
  checkInTimes (keys_of (student_checkin_edit 9 7 43 demo_state).1 7) !! 42 = Some 0.
Proof.
  destruct (toggle_other_student 9 7 43 42 demo_state ltac:(lia)) as (_ & Hin & _).
  transitivity (checkInTimes (keys_of demo_state 7) !! 42); [exact Hin|].
  vm_compute. reflexivity.
Defined.

(** The snapshot's count always equals the length of its student list, and
    the list has no repeated student. *)
Theorem snapshot_count_consistent e (r : Redis) :
  checked_in_count (get_live_attendance e r) = length (students (get_live_attendance e r)) ∧
  NoDup (map fst (students (get_live_attendance e r))).
Proof.
  split.
  - unfold get_live_attendance, scard, smembers. simpl. by rewrite length_map.
  - apply (live_attendance_reports_times e r).
Qed.

(** Right after a toggle, the snapshot shows the student with the new
    check-in time when the toggle checked them in, and does not list them
    when it checked them out. *)
Theorem snapshot_after_toggle now e s (r : Redis) :
  let t := student_checkin_edit now e s r in
  (t.2 = CHECKED_IN → (s, AtTime now) ∈ students (get_live_attendance e t.1)) ∧
  (t.2 = CHECKED_OUT → s ∉ map fst (students (get_live_attendance e t.1))).
Proof.
  simpl. rewrite checkin_edit_keys. simpl.
  case_bool_decide as Hin; simpl; split; try discriminate; intros _.
  - unfold get_live_attendance, smembers. simpl. rewrite keys_of_put_eq. simpl.
    rewrite map_map. simpl. rewrite map_id, elem_of_elements. set_solver.
  - unfold get_live_attendance, smembers, hgetall_in. simpl. rewrite keys_of_put_eq. simpl.
    apply list_elem_of_fmap. exists s. split; [by rewrite lookup_insert_eq|].
    rewrite elem_of_elements. set_solver.
Qed.

Lemma snapshot_after_toggle_witness :
  (42, AtTime 5) ∈ students (get_live_attendance 7 (student_checkin_edit 5 7 42 ∅).1).
Proof.
  apply (proj1 (snapshot_after_toggle 5 7 42 ∅)). vm_compute. reflexivity.
Defined.

(** After a successful finalize, finalizing the same event again persists
    nothing and reports the "No attendance data" summary, whether or not
    the durable store is reachable; the state does not change. *)
Theorem finalize_twice up up' e (r : Redis) (db : Table) r' db' sm :
  finalize_event_attendance up e r db = (r', db', FinOk sm) →
  finalize_event_attendance up' e r' db' = (r', db', FinOk (mkSummary e 0 no_data_message)).
Proof.
  intros Hf. apply finalize_ok in Hf as (-> & -> & _).
  rewrite (proj1 (finalize_empty_history up' e (delete_event_keys r e) _
                   ltac:(rewrite keys_of_delete_eq; apply dom_empty_L))).
  unfold delete_event_keys. by rewrite delete_delete_eq.
Qed.

Lemma finalize_twice_witness :
  finalize_event_attendance false 7 ∅ [mkRecord 7 43 (Some 1) None; mkRecord 7 42 (Some 0) None]
  = (∅, [mkRecord 7 43 (Some 1) None; mkRecord 7 42 (Some 0) None],
     FinOk (mkSummary 7 0 no_data_message)).
Proof.
  apply (finalize_twice true false 7 demo_state [] ∅ _ (mkSummary 7 2 (persisted_message 2))).
  vm_compute. reflexivity.
Defined.

Lemma filter_event_build_records e e' (ids : list Z) cin cout :
  filter (fun row => ar_event row = e') (build_records e ids cin cout) =
  if decide (e = e') then build_records e ids cin cout else [].
Proof.
  induction ids as [|s ids IH]; simpl; [by case_decide|].
  rewrite filter_cons. simpl. rewrite IH. by repeat case_decide.
Qed.

Lemma length_build_records e (ids : list Z) cin cout :
  length (build_records e ids cin cout) = length ids.
Proof. apply length_map. Qed.

(** Finalizing one event, whatever its outcome, leaves every other
    event's Redis keys and finalized row count (the [FinalizedCount] of the
    full-summary endpoint) unchanged. *)
Theorem finalize_other_events_untouched up e e' (r : Redis) (db : Table) r' db' res :
  finalize_event_attendance up e r db = (r', db', res) → e' ≠ e →
  keys_of r' e' = keys_of r e' ∧ finalized_count e' db' = finalized_count e' db.
Proof.
  intros Hf Hne. destruct res as [sm|err].
  - apply finalize_ok in Hf as (-> & -> & _). split.
    + apply keys_of_delete_ne. congruence.
    + unfold finalized_count. rewrite filter_app, length_app, filter_event_build_records.
      rewrite decide_False by congruence. simpl. lia.
  - by apply finalize_raise in Hf as (-> & -> & _).
Qed.

Lemma finalize_other_events_untouched_witness :
  keys_of (delete_event_keys demo_state 8) 7 = keys_of demo_state 7.
Proof.
  apply (proj1 (finalize_other_events_untouched true 8 7 demo_state []
                  (delete_event_keys demo_state 8) [] (FinOk (mkSummary 8 0 no_data_message))
                  ltac:(vm_compute; reflexivity) ltac:(lia))).
Defined.

(** A successful finalize persists one row per student id of CheckInTimes
    (records_persisted is the number of such ids), and the event's
    finalized row count grows by exactly records_persisted. *)
Theorem finalize_count_persisted up e (r : Redis) (db : Table) r' db' sm :
  finalize_event_attendance up e r db = (r', db', FinOk sm) →
  records_persisted sm = size (dom (checkInTimes (keys_of r e))) ∧
  finalized_count e db' = (finalized_count e db + records_persisted sm)%nat.
Proof.
  intros Hf. apply finalize_ok in Hf as (_ & -> & Hn & _). rewrite Hn.
  unfold hgetall_in. rewrite length_build_records. split; [reflexivity|].
  unfold finalized_count. rewrite filter_app, length_app, filter_event_build_records.
  rewrite decide_True by done. by rewrite length_build_records.
Qed.

Lemma finalize_count_persisted_witness :
  finalized_count 7 [mkRecord 7 43 (Some 1) None; mkRecord 7 42 (Some 0) None] = 2%nat.
Proof.
  apply (proj2 (finalize_count_persisted true 7 demo_state [] ∅ _
                  (mkSummary 7 2 (persisted_message 2)) ltac:(vm_compute; reflexivity))).
Defined.

(** ** The history invariant *)

Lemma history_step (X I O : gset Z) s :
  X ⊆ I → O ⊆ I → I ⊆ X ∪ O →
  (s ∈ X → {[s]} ∪ O ⊆ I ∧ I ⊆ X ∖ {[s]} ∪ ({[s]} ∪ O)) ∧
  (O ∖ {[s]} ⊆ {[s]} ∪ I ∧ {[s]} ∪ I ⊆ {[s]} ∪ X ∪ O ∖ {[s]}).
Proof.
  intros HXI HOI HI. split.
  - intros Hs. split; [set_solver|].
    intros x Hx. destruct (decide (x = s)) as [->|Hxs]; [set_solver|].
    apply HI in Hx. set_solver.
  - split; [set_solver|].
    intros x Hx. destruct (decide (x = s)) as [->|Hxs]; [set_solver|].
    apply elem_of_union in Hx as [Hx|Hx]; [set_solver|]. apply HI in Hx. set_solver.
Qed.

Lemma toggle_preserves_history now e s (r : Redis) :
  inv_redis r → (∀ e, inv_history (keys_of r e)) →
  ∀ e', inv_history (keys_of (student_checkin_edit now e s r).1 e').
Proof.
  intros Hinv Hh e'. rewrite checkin_edit_keys. cbv zeta.
  destruct (decide (e = e')) as [<-|Hne].
  - destruct (Hinv e) as [_ Hsub]. destruct (Hh e) as [Ho Hi]. clear Hinv Hh.
    destruct (history_step _ _ _ s Hsub Ho Hi) as [Hout Hin].
    case_bool_decide as Hs; simpl; rewrite keys_of_put_eq; unfold inv_history; simpl;
      rewrite ?dom_insert_L, ?dom_delete_L; [exact (Hout Hs) | exact Hin].
  - case_bool_decide; simpl; rewrite keys_of_put_ne; auto.
Qed.

Lemma run_history ops : Inv (run ops) ∧ ∀ e, inv_history (keys_of (run ops).1 e).
Proof.
  unfold run.
  assert (H0 : Inv init_state ∧ ∀ e, inv_history (keys_of init_state.1 e)).
  { split; [apply inv_init|]. intros e. unfold init_state, keys_of. simpl. rewrite lookup_empty.
    unfold inv_history. cbn. rewrite dom_empty_L. set_solver. }
  revert H0. generalize init_state.
  induction ops as [|o ops IH]; intros [r db] [HI Hh]; cbn [foldl]; [done|].
  apply IH. split; [exact (exec_op_preserves_inv o (r, db) HI)|].
  simpl in Hh. destruct o as [now e s|e|pick e|up e]; simpl.
  - apply toggle_preserves_history; [apply HI|done].
  - done.
  - unfold get_random_winner. by destruct (srandmember r e pick).
  - destruct (finalize_event_attendance up e r db) as [[r' db'] [sm|err]] eqn:Hf; simpl.
    + apply finalize_ok in Hf as (-> & _). intros e'.
      destruct (decide (e = e')) as [<-|Hne].
      * rewrite keys_of_delete_eq. unfold inv_history. cbn. rewrite dom_empty_L. set_solver.
      * rewrite keys_of_delete_ne; auto.
    + by apply finalize_raise in Hf as (-> & _).
Qed.

(** In every reachable state, a student has a check-out time only if they
    have a check-in time, and every student with a check-in time is either
    currently checked in or has a check-out time. *)
Theorem reachable_history ops e :
  let k := keys_of (run ops).1 e in
  dom (checkOutTimes k) ⊆ dom (checkInTimes k) ∧
  dom (checkInTimes k) ⊆ checkedIn k ∪ dom (checkOutTimes k).
Proof. apply (proj2 (run_history ops) e). Qed.

(** From a reachable state, each row of a successful finalize carries the
    student's stored check-out time, and that time is null exactly when the
    student is still checked in: a student who checked out is never
    persisted with a null CheckOutTime. *)
Theorem finalize_checkout_null_iff_checked_in ops up e r' db' sm :
  finalize_event_attendance up e (run ops).1 (run ops).2 = (r', db', FinOk sm) →
  let k := keys_of (run ops).1 e in
  ∀ rec, rec ∈ db' → rec ∉ (run ops).2 →
    ar_check_out rec = checkOutTimes k !! ar_student rec ∧
    (ar_check_out rec = None ↔ ar_student rec ∈ checkedIn k).
Proof.
  intros Hf k rec Hrec Hold.
  destruct (run_history ops) as [[Hinv _] Hh].
  destruct (Hinv e) as [Hdis _]. destruct (Hh e) as [_ Hi]. clear Hinv Hh.
  apply finalize_ok in Hf as (_ & -> & _).
  apply elem_of_app in Hrec as [Hrec|Hrec]; [done|].
  apply elem_of_build_records in Hrec as (s & -> & Hs). simpl.
  rewrite elem_of_elements in Hs. unfold hgetall_in, hgetall_out in *. fold k in Hs, Hdis, Hi |- *.
  split; [done|]. split.
  - intros Hnone. apply Hi in Hs. apply elem_of_union in Hs as [Hs|Hs]; [done|].
    apply elem_of_dom in Hs as [t Ht]. congruence.
  - intros Hin. apply not_elem_of_dom. set_solver.
Qed.

Lemma finalize_checkout_null_iff_checked_in_witness :
  ar_check_out (mkRecord 7 42 (Some 0) (Some 1)) = Some 1 ∧
  (ar_check_out (mkRecord 7 42 (Some 0) (Some 1)) = None ↔
   42 ∈ checkedIn (keys_of (run [OpToggle 0 7 42; OpToggle 1 7 42]).1 7)).
Proof.
  apply (finalize_checkout_null_iff_checked_in [OpToggle 0 7 42; OpToggle 1 7 42] true 7 ∅
           [mkRecord 7 42 (Some 0) (Some 1)] (mkSummary 7 1 (persisted_message 1))).
  - vm_compute. reflexivity.
  - left.
  - apply not_elem_of_nil.
Defined.

Lemma get_random_winner_result pick e (r : Redis) :
  get_random_winner pick e r = (r, srandmember r e pick).
Proof. unfold get_random_winner. by destruct (srandmember r e pick). Qed.

Lemma srandmember_member pick e (r : Redis) :
  scard r e ≠ 0%nat → ∃ s, srandmember r e pick = Some s ∧ s ∈ checkedIn (keys_of r e).
Proof.
  unfold scard, srandmember, smembers. intros Hne.
  assert (Hsz : size (checkedIn (keys_of r e)) = length (elements (checkedIn (keys_of r e))))
    by reflexivity.
  rewrite Hsz in Hne.
  destruct (elements (checkedIn (keys_of r e))) as [|x xs] eqn:Hel; [done|].
  destruct (lookup_lt_is_Some_2 (x :: xs) (pick mod length (x :: xs))%nat
              (Nat.mod_upper_bound pick (length (x :: xs)) ltac:(simpl; lia))) as [s Hs].
  exists s. split; [exact Hs|]. rewrite <- elem_of_elements, Hel.
  by apply list_elem_of_lookup_2 in Hs.
Qed.



